(** * The order-book engine of server.py

    A shallow embedding of the "Order Book" section of [src/server.py]
    ([add_book], [clear_order], [clear_book], [order_book]) and the
    properties of the engine that the specification states about it.

    Conventions.
    - A resting order is the Python tuple [(price, size, age)].  Prices are
      the generator's two-decimal quotes, held as an integer number of
      hundredths; only their order and equality matter below.  Sizes and
      ages are Python integers, hence [Z].
    - A ledger is a Python list of such tuples; the book is the dict that
      [order_book] mutates, keyed by the side string.
    - A Python exception is an explicit [Raise]; a function that returns
      [None] returns [Ok None].  The interpreter's own limits (recursion
      depth, memory) are not part of the model. *)

From Stdlib Require Import ZArith Lia Ascii.
From stdpp Require Import gmap strings list sorting.

Local Open Scope Z_scope.

(** ** Data *)

(** [(price, size, age)] *)
Definition entry : Type := Z * Z * Z.

Definition price (e : entry) : Z := e.1.1.
Definition esize (e : entry) : Z := e.1.2.
Definition life (e : entry) : Z := e.2.

Abbreviation ledger := (list entry).

(** [(t, stock, side, order, size)], one element of the order stream. *)
Definition order_row : Type := Z * string * string * Z * Z.

(** [(t, bids, asks)], one yielded value of [order_book].  A ledger of the
    snapshot is [None] when the book has no list under that side. *)
Definition snapshot : Type := Z * option ledger * option ledger.

Definition snap_bids (s : snapshot) : option ledger := s.1.2.
Definition snap_asks (s : snapshot) : option ledger := s.2.

Inductive exn : Type :=
| IndexError
| TypeError.

Inductive result (A : Type) : Type :=
| Ok (a : A)
| Raise (e : exn).

Arguments Ok {A} a.
Arguments Raise {A} e.

(** ** add_book *)

(** The [for o, s, age in book] loop of [add_book]: an entry is yielded,
    one step older, when its age is positive on entry to the loop body. *)
Fixpoint add_book_rest (book : ledger) : ledger :=
  match book with
  | [] => []
  | (o, s, age) :: book' =>
      if 0 <? age then (o, s, age - 1) :: add_book_rest book'
      else add_book_rest book'
  end.

(** [add_book(book, order, size, _age)], the generator run to its end. *)
Definition add_book (book : ledger) (order size _age : Z) : ledger :=
  (order, size, _age) :: add_book_rest book.

(** The default of the [_age] parameter. *)
Definition default_age : Z := 10.

(** ** clear_order *)

(** [operator.ge], the default of the [op] parameter. *)
Definition ge : Z -> Z -> bool := Z.geb.

(** [book[0]] raises on the empty list; falling off the end of the
    function body returns [None]. *)
Fixpoint clear_order (order size : Z) (book : ledger) (op : Z -> Z -> bool)
    (_notional : Z) {struct book} : result (option (Z * ledger)) :=
  match book with
  | [] => Raise IndexError
  | (top_order, top_size, age) :: tail =>
      if op order top_order then
        let _notional := _notional + Z.min size top_size * top_order in
        let sdiff := top_size - size in
        if 0 <? sdiff then
          Ok (Some (_notional, add_book tail top_order sdiff age))
        else if (0 <? length tail)%nat then
          clear_order order (- sdiff) tail op _notional
        else Ok None
      else Ok None
  end.

(** ** clear_book *)

(** The [while buy and sell] loop on two lists.  A returned tuple is truthy
    whatever it holds, so only [None] takes the [break]. *)
Fixpoint clear_book (buy sell : ledger) {struct buy} : result (ledger * ledger) :=
  match buy, sell with
  | (order, size, _) :: buy', _ :: _ =>
      match clear_order order size sell ge 0 with
      | Raise e => Raise e
      | Ok (Some new_book) => clear_book buy' new_book.2
      | Ok None => Ok (buy, sell)
      end
  | _, _ => Ok (buy, sell)
  end.

(** The call of [clear_book] with the book dict unpacked into keyword
    arguments: a key other than the two parameter names
    is a [TypeError]; a parameter without a key keeps its default [None],
    the loop guard is false at once and the pair is returned as it is. *)
Definition clear_book_kwargs (book : gmap string ledger)
    : result (option ledger * option ledger) :=
  if decide (dom book ⊆ {[ "buy"; "sell" ]}) then
    match book !! "buy", book !! "sell" with
    | Some buy, Some sell =>
        match clear_book buy sell with
        | Ok (bids, asks) => Ok (Some bids, Some asks)
        | Raise e => Raise e
        end
    | buy, sell => Ok (buy, sell)
    end
  else Raise TypeError.

(** ** sorted *)

(** [sorted(new, reverse=..., key=lambda x: x[0])].  Python's sort is stable,
    also under [reverse=True]; a stable sort has one possible output, which
    insertion from the right computes: an element goes behind the entries
    that must precede it and in front of the first one of equal key. *)
Fixpoint sorted_insert (reverse : bool) (x : entry) (l : ledger) : ledger :=
  match l with
  | [] => [x]
  | y :: l' =>
      if (if reverse then price x <? price y else price y <? price x)
      then y :: sorted_insert reverse x l'
      else x :: y :: l'
  end.

Definition sorted (new : ledger) (reverse : bool) : ledger :=
  foldr (sorted_insert reverse) [] new.

(** ** order_book *)

(** The body of the [for] loop up to the [yield]: the new book and the
    yielded value. *)
Definition order_book_body (book : gmap string ledger) (stock_name : string)
    (row : order_row) : gmap string ledger * result snapshot :=
  let '(t, stock, side, order, size) := row in
  let book :=
    if decide (stock_name = stock) then
      let new := add_book (default [] (book !! side)) order size default_age in
      <[ side := sorted new (bool_decide (side = "buy")) ]> book
    else book in
  (book,
   match clear_book_kwargs book with
   | Ok (bids, asks) => Ok (t, bids, asks)
   | Raise e => Raise e
   end).

(** The generator consumed to its end: the snapshots it yields, in order,
    and how it stops: exhausted, with the book as the loop left it, or by
    an exception. *)
Fixpoint order_book (orders : list order_row) (book : gmap string ledger)
    (stock_name : string) : list snapshot * result (gmap string ledger) :=
  match orders with
  | [] => ([], Ok book)
  | row :: orders' =>
      match order_book_body book stock_name row with
      | (book', Ok snap) =>
          let '(snaps, fin) := order_book orders' book' stock_name in
          (snap :: snaps, fin)
      | (_, Raise e) => ([], Raise e)
      end
  end.

(** The book of [App.__init__]. *)
Definition empty_book : gmap string ledger :=
  {[ "buy" := []; "sell" := [] ]}.

(** ** read_params *)

(** [s.split(sep)] for a separator of one character: the pieces between the
    occurrences of [sep], one more than there are occurrences.  The path of
    a request is decoded one byte to one character, as a [string] holds it. *)
Fixpoint str_split (sep : ascii) (s : string) : list string :=
  match s with
  | EmptyString => [EmptyString]
  | String c s' =>
      if decide (c = sep) then EmptyString :: str_split sep s'
      else match str_split sep s' with
           | w :: ws => String c w :: ws
           | [] => [String c EmptyString]
           end
  end.

(** What [dict(...)] returns: the dict, or the ValueError it raises on an
    element that is not of length 2. *)
Inductive dict_result : Type :=
| Dict (d : gmap string string)
| ValueError.

(** [dict(items)] over lists of strings, element by element: a later key
    replaces an earlier one. *)
Fixpoint dict_update (d : gmap string string) (items : list (list string))
    : dict_result :=
  match items with
  | [] => Dict d
  | [k; v] :: items' => dict_update (<[ k := v ]> d) items'
  | _ :: _ => ValueError
  end.

Definition dict (items : list (list string)) : dict_result :=
  dict_update ∅ items.

(** [RequestHandler.read_params]: [query[1]] is there exactly when
    [len(query) > 1]. *)
Definition read_params (path : string) : dict_result :=
  match str_split "?" path with
  | _ :: query1 :: _ => dict (str_split "=" <$> str_split "&" query1)
  | _ => Dict ∅
  end.

(** ** Vocabulary of the statements *)

(** An entry one insertion older. *)
Definition older (e : entry) : entry := (price e, esize e, life e - 1).

(** Bids best first, asks best first; equal prices allowed. *)
Definition descending (l : ledger) : Prop :=
  StronglySorted (λ x y, price y ≤ price x) l.
Definition ascending (l : ledger) : Prop :=
  StronglySorted (λ x y, price x ≤ price y) l.

(** The same, with equal prices excluded. *)
Definition strictly_descending (l : ledger) : Prop :=
  StronglySorted (λ x y, price y < price x) l.
Definition strictly_ascending (l : ledger) : Prop :=
  StronglySorted (λ x y, price x < price y) l.

(** A property of a ledger of a snapshot; [None] carries no entry. *)
Definition on_ledger (P : ledger → Prop) (l : option ledger) : Prop :=
  match l with Some l => P l | None => True end.

(** Both ledgers have an entry and the best bid is below the best ask,
    or one of them has none. *)
Definition uncrossed (buy sell : ledger) : Prop :=
  match buy, sell with
  | b :: _, a :: _ => price b < price a
  | _, _ => True
  end.

(** The sides the engine knows. *)
Definition known_side (side : string) : Prop := side = "buy" ∨ side = "sell".

Definition row_time (row : order_row) : Z := row.1.1.1.1.
Definition row_stock (row : order_row) : string := row.1.1.1.2.
Definition row_side (row : order_row) : string := row.1.1.2.

(** * Properties *)

(** ** add_book *)

Lemma add_book_rest_filter (book : ledger) :
  add_book_rest book = older <$> filter (λ e, 0 < life e) book.
Proof.
  induction book as [|[[o s] age] book IH]; [done|].
  cbn [add_book_rest]. rewrite filter_cons, IH.
  destruct (decide (0 < life (o, s, age))) as [Hage|Hage];
    unfold life in Hage; cbn [snd] in Hage.
  - by destruct (Z.ltb_spec 0 age); [|lia].
  - by destruct (Z.ltb_spec 0 age); [lia|].
Qed.

Lemma add_book_rest_elem (book : ledger) (e : entry) :
  e ∈ add_book_rest book ↔ ∃ e0, e0 ∈ book ∧ 0 < life e0 ∧ e = older e0.
Proof.
  rewrite add_book_rest_filter, list_elem_of_fmap.
  split.
  - intros (e0 & -> & Hin). apply list_elem_of_filter in Hin as [? ?]. eauto.
  - intros (e0 & Hin & Hlife & ->). exists e0. split; [done|].
    by apply list_elem_of_filter.
Qed.

(** C6, as the code has it: the new order comes first with life 10, then,
    in their order, the prior entries whose life BEFORE the decrement is
    positive, each one step older; an entry whose life was 1 therefore stays
    with life 0, and an entry whose life was 0 or less is absent. *)
Theorem add_book_spec (book : ledger) (order size : Z) :
  add_book book order size default_age
  = (order, size, 10) :: (older <$> filter (λ e, 0 < life e) book)
  ∧ (∀ e, e ∈ book → 0 < life e →
       older e ∈ add_book book order size default_age)
  ∧ (∀ e, e ∈ add_book_rest book → 0 ≤ life e).
Proof.
  split; [|split].
  - unfold add_book. by rewrite add_book_rest_filter.
  - intros e Hin Hlife. unfold add_book. apply list_elem_of_further.
    apply add_book_rest_elem. eauto.
  - intros e (e0 & _ & Hlife & ->)%add_book_rest_elem.
    unfold older, life in *. cbn. lia.
Qed.

Lemma add_book_spec_witness :
  older (50, 1, 1) ∈ add_book [(50, 1, 1); (40, 2, 0)] 60 2 default_age.
Proof.
  apply (proj1 (proj2 (add_book_spec [(50, 1, 1); (40, 2, 0)] 60 2))).
  - apply list_elem_of_here.
  - unfold life. cbn. lia.
Defined.

(** C6 as stated fails: an entry whose decremented life is 0 is still in the
    result. *)
Lemma add_book_keeps_life_zero :
  add_book [(50, 1, 1)] 60 2 default_age = [(60, 2, 10); (50, 1, 0)]
  ∧ add_book [(50, 1, 1)] 60 2 default_age
    ≠ (60, 2, 10) :: (older <$> filter (λ e, 0 < life e - 1) [(50, 1, 1)]).
Proof. split; [reflexivity|]. vm_compute. discriminate. Qed.

(** ** clear_order *)

Lemma clear_order_nonempty_ok (order size : Z) (book : ledger)
    (op : Z → Z → bool) (n : Z) :
  book ≠ [] → ∃ r, clear_order order size book op n = Ok r.
Proof.
  revert size n. induction book as [|[[p s] age] tail IH]; [done|].
  intros size n _. cbn [clear_order].
  destruct (op order p); [|eauto].
  destruct (0 <? s - size); [eauto|].
  destruct tail as [|e tail]; [cbn; eauto|].
  cbn [length Nat.ltb Nat.leb]. by apply IH.
Qed.

Lemma clear_book_ok (buy sell : ledger) :
  ∃ bids asks, clear_book buy sell = Ok (bids, asks).
Proof.
  revert sell. induction buy as [|[[o s] a] buy IH]; intros sell; [cbn; eauto|].
  destruct sell as [|e sell]; [cbn; eauto|].
  cbn [clear_book].
  destruct (clear_order_nonempty_ok o s (e :: sell) ge 0) as [[[n bk]|] ->];
    [done| |]; eauto.
Qed.

(** C4, as the code has it: on an empty ledger [clear_order] raises
    IndexError, for every price, size, comparison and notional; it has no
    absent result for that case.  The empty case is caught one level up:
    with an empty ask ledger [clear_book] returns both ledgers as they are
    and makes no call. *)
Theorem clear_order_empty_raises (order size : Z) (op : Z → Z → bool) (n : Z) :
  clear_order order size [] op n = Raise IndexError
  ∧ (∀ buy, clear_book buy [] = Ok (buy, [])).
Proof.
  split; [done|].
  intros buy. by destruct buy as [|[[o s] a] buy].
Qed.

(** C4 as stated fails: the call on an empty ledger does not return None. *)
Lemma clear_order_empty_not_none :
  clear_order 100 5 [] ge 0 = Raise IndexError
  ∧ clear_order 100 5 [] ge 0 ≠ Ok None.
Proof. split; [reflexivity|discriminate]. Qed.

(** C5, as the code has it: when the front entry crosses and is larger than
    the incoming size, the result is the front entry reduced by the incoming
    size, with its life, followed by the rest of the ledger put through the
    aging of [add_book]: entries of positive life one step older, the others
    dropped.  The size taken off the front entry is the filled amount. *)
Theorem clear_order_partial_fill (order size top_order top_size age : Z)
    (tail : ledger) (op : Z → Z → bool) (n : Z) :
  op order top_order = true →
  0 < top_size - size →
  clear_order order size ((top_order, top_size, age) :: tail) op n
  = Ok (Some (n + Z.min size top_size * top_order,
              (top_order, top_size - size, age)
                :: (older <$> filter (λ e, 0 < life e) tail)))
  ∧ top_size - (top_size - size) = Z.min size top_size.
Proof.
  intros Hop Hdiff. split; [|lia].
  cbn [clear_order]. rewrite Hop.
  destruct (Z.ltb_spec 0 (top_size - size)); [|lia].
  unfold add_book. by rewrite add_book_rest_filter.
Qed.

Lemma clear_order_partial_fill_witness :
  clear_order 100 3 [(90, 5, 7); (95, 4, 1); (96, 1, 0)] ge 0
  = Ok (Some (0 + Z.min 3 5 * 90,
              (90, 5 - 3, 7)
                :: (older <$> filter (λ e, 0 < life e) [(95, 4, 1); (96, 1, 0)])))
  ∧ 5 - (5 - 3) = Z.min 3 5.
Proof. apply (clear_order_partial_fill 100 3 90 5 7); [reflexivity|lia]. Defined.

(** C5 as stated fails: the rest of the ledger is not left as it was; one
    entry comes back a step older and one is gone. *)
Lemma clear_order_partial_fill_ages_tail :
  clear_order 100 3 [(90, 5, 7); (95, 4, 1); (96, 1, 0)] ge 0
  = Ok (Some (270, [(90, 2, 7); (95, 4, 0)]))
  ∧ clear_order 100 3 [(90, 5, 7); (95, 4, 1); (96, 1, 0)] ge 0
    ≠ Ok (Some (270, [(90, 2, 7); (95, 4, 1); (96, 1, 0)])).
Proof. split; [reflexivity|]. vm_compute. discriminate. Qed.

(** ** clear_book *)

Lemma clear_book_suffix (buy sell bids asks : ledger) :
  clear_book buy sell = Ok (bids, asks) → bids `suffix_of` buy.
Proof.
  revert sell. induction buy as [|[[o s] a] buy IH]; intros sell.
  - cbn. by intros [= <- <-].
  - destruct sell as [|e sell]; [cbn; by intros [= <- <-]|].
    cbn [clear_book].
    destruct (clear_order o s (e :: sell) ge 0) as [[nb|]|]; [| |done].
    + intros H%IH. by apply suffix_cons_r.
    + by intros [= <- <-].
Qed.

Lemma clear_book_fixed (buy sell bids asks : ledger) :
  clear_book buy sell = Ok (bids, asks) → clear_book bids asks = Ok (bids, asks).
Proof.
  revert sell. induction buy as [|[[o s] a] buy IH]; intros sell.
  - cbn. by intros [= <- <-].
  - destruct sell as [|e sell]; [cbn; by intros [= <- <-]|].
    cbn [clear_book].
    destruct (clear_order o s (e :: sell) ge 0) as [[nb|]|] eqn:Hco; [| |done].
    + apply IH.
    + intros [= <- <-]. cbn [clear_book]. by rewrite Hco.
Qed.

Lemma clear_book_uncrossed (buy sell : ledger) :
  uncrossed buy sell → clear_book buy sell = Ok (buy, sell).
Proof.
  destruct buy as [|[[o s] a] buy]; [done|].
  destruct sell as [|[[p z] g] sell]; [done|].
  unfold uncrossed, price. cbn [fst]. intros Hlt.
  cbn [clear_book clear_order]. unfold ge.
  by destruct (Z.geb_spec o p); [lia|].
Qed.

(** C10: the bid ledger that [clear_book] returns is a suffix of the bid
    ledger it was given: bids leave from the front, whole, and the ones
    that stay keep their size and life. *)
Theorem clear_book_bids_suffix (buy sell : ledger) :
  ∃ bids asks, clear_book buy sell = Ok (bids, asks) ∧ bids `suffix_of` buy.
Proof.
  destruct (clear_book_ok buy sell) as (bids & asks & Heq).
  exists bids, asks. split; [done|]. by eapply clear_book_suffix.
Qed.

(** C9: [clear_book] is idempotent: it returns for every pair of ledgers,
    and run again on what it returned it returns the same pair; a pair that
    is uncrossed to begin with is returned as it is. *)
Theorem clear_book_idempotent (buy sell : ledger) :
  (∃ bids asks, clear_book buy sell = Ok (bids, asks)
                ∧ clear_book bids asks = Ok (bids, asks))
  ∧ (uncrossed buy sell → clear_book buy sell = Ok (buy, sell)).
Proof.
  split.
  - destruct (clear_book_ok buy sell) as (bids & asks & Heq).
    exists bids, asks. split; [done|]. by eapply clear_book_fixed.
  - apply clear_book_uncrossed.
Qed.

Lemma clear_book_idempotent_witness :
  clear_book [(100, 5, 10); (98, 1, 4)] [(101, 3, 10)]
  = Ok ([(100, 5, 10); (98, 1, 4)], [(101, 3, 10)]).
Proof.
  apply (proj2 (clear_book_idempotent [(100, 5, 10); (98, 1, 4)] [(101, 3, 10)])).
  unfold uncrossed, price. cbn. lia.
Defined.

(** ** Sorted ledgers *)

Section price_order.
Variable R : relation Z.

(** Sortedness of a ledger by a relation on its prices. *)
Definition price_sorted (l : ledger) : Prop :=
  StronglySorted (λ x y, R (price x) (price y)) l.

Lemma price_sorted_cons (x : entry) (l : ledger) :
  price_sorted (x :: l)
  ↔ Forall (λ y, R (price x) (price y)) l ∧ price_sorted l.
Proof. apply StronglySorted_cons. Qed.

Lemma add_book_rest_Forall (P : Z → Prop) (l : ledger) :
  Forall (λ y, P (price y)) l → Forall (λ y, P (price y)) (add_book_rest l).
Proof.
  rewrite add_book_rest_filter. intros Hall.
  apply Forall_fmap, Forall_forall. intros y [_ Hin]%list_elem_of_filter.
  rewrite Forall_forall in Hall. change (P (price y)). by apply Hall.
Qed.

Lemma add_book_rest_sorted (l : ledger) :
  price_sorted l → price_sorted (add_book_rest l).
Proof.
  induction l as [|[[o s] a] l IH]; [done|].
  intros [Hall Hs]%price_sorted_cons. cbn [add_book_rest].
  destruct (0 <? a); [|by apply IH].
  apply price_sorted_cons. split; [|by apply IH].
  by apply (add_book_rest_Forall (R o)).
Qed.

Lemma clear_order_sorted (order size : Z) (book : ledger)
    (op : Z → Z → bool) (n m : Z) (bk : ledger) :
  price_sorted book →
  clear_order order size book op n = Ok (Some (m, bk)) →
  price_sorted bk.
Proof.
  revert size n. induction book as [|[[p s] a] tail IH]; [done|].
  intros size n [Hall Hs]%price_sorted_cons. cbn [clear_order].
  destruct (op order p); [|done].
  destruct (0 <? s - size).
  - intros [= <- <-]. unfold add_book. apply price_sorted_cons. split.
    + by apply (add_book_rest_Forall (R p)).
    + by apply add_book_rest_sorted.
  - destruct (0 <? length tail)%nat; [|done]. by apply IH.
Qed.

Lemma price_sorted_suffix (l k : ledger) :
  l `suffix_of` k → price_sorted k → price_sorted l.
Proof. intros [k' ->]. apply StronglySorted_app_1_r. Qed.
End price_order.

Lemma descending_price_sorted (l : ledger) :
  descending l ↔ price_sorted (flip Z.le) l.
Proof. done. Qed.

Lemma ascending_price_sorted (l : ledger) :
  ascending l ↔ price_sorted Z.le l.
Proof. done. Qed.

Lemma sorted_insert_elem (reverse : bool) (x y : entry) (l : ledger) :
  y ∈ sorted_insert reverse x l ↔ y = x ∨ y ∈ l.
Proof.
  induction l as [|z l IH]; cbn [sorted_insert].
  - rewrite list_elem_of_singleton, elem_of_nil. tauto.
  - destruct (if reverse then _ else _).
    + rewrite !elem_of_cons, IH. tauto.
    + rewrite !elem_of_cons. tauto.
Qed.

Lemma sorted_insert_descending (x : entry) (l : ledger) :
  descending l → descending (sorted_insert true x l).
Proof.
  unfold descending. induction l as [|y l IH]; cbn [sorted_insert].
  - intros _. apply StronglySorted_cons. split; [done|constructor].
  - intros [Hall Hs]%StronglySorted_cons.
    destruct (Z.ltb_spec (price x) (price y)) as [Hlt|Hge].
    + apply StronglySorted_cons. split; [|by apply IH].
      apply Forall_forall. intros z [->|Hz]%sorted_insert_elem; [lia|].
      rewrite Forall_forall in Hall. by apply Hall.
    + apply StronglySorted_cons. split; [|by apply StronglySorted_cons].
      apply Forall_cons. split; [done|].
      eapply Forall_impl; [exact Hall|]. cbn. intros; lia.
Qed.

Lemma sorted_insert_ascending (x : entry) (l : ledger) :
  ascending l → ascending (sorted_insert false x l).
Proof.
  unfold ascending. induction l as [|y l IH]; cbn [sorted_insert].
  - intros _. apply StronglySorted_cons. split; [done|constructor].
  - intros [Hall Hs]%StronglySorted_cons.
    destruct (Z.ltb_spec (price y) (price x)) as [Hlt|Hge].
    + apply StronglySorted_cons. split; [|by apply IH].
      apply Forall_forall. intros z [->|Hz]%sorted_insert_elem; [lia|].
      rewrite Forall_forall in Hall. by apply Hall.
    + apply StronglySorted_cons. split; [|by apply StronglySorted_cons].
      apply Forall_cons. split; [done|].
      eapply Forall_impl; [exact Hall|]. cbn. intros; lia.
Qed.

Lemma sorted_descending (new : ledger) : descending (sorted new true).
Proof.
  induction new as [|x new IH]; [constructor|].
  by apply sorted_insert_descending.
Qed.

Lemma sorted_ascending (new : ledger) : ascending (sorted new false).
Proof.
  induction new as [|x new IH]; [constructor|].
  by apply sorted_insert_ascending.
Qed.

Lemma clear_book_sorted (buy sell bids asks : ledger) :
  descending buy → ascending sell →
  clear_book buy sell = Ok (bids, asks) →
  descending bids ∧ ascending asks.
Proof.
  intros Hbuy Hsell Heq. split.
  - apply descending_price_sorted.
    eapply price_sorted_suffix; [by eapply clear_book_suffix|done].
  - clear Hbuy. revert sell Hsell Heq.
    induction buy as [|[[o s] a] buy IH]; intros sell Hsell.
    + cbn. by intros [= <- <-].
    + destruct sell as [|e sell]; [cbn; by intros [= <- <-]|].
      cbn [clear_book].
      destruct (clear_order o s (e :: sell) ge 0) as [[[m bk]|]|] eqn:Hco;
        [| |done].
      * apply IH. cbn. apply ascending_price_sorted.
        eapply clear_order_sorted; [|exact Hco]. done.
      * by intros [= <- <-].
Qed.

Lemma sorted_insert_Permutation (reverse : bool) (x : entry) (l : ledger) :
  sorted_insert reverse x l ≡ₚ x :: l.
Proof.
  induction l as [|y l IH]; [done|]. cbn [sorted_insert].
  destruct (if reverse then _ else _); [|done].
  rewrite IH. apply Permutation_swap.
Qed.

(** [sorted] only reorders. *)
Lemma sorted_Permutation (new : ledger) (reverse : bool) :
  sorted new reverse ≡ₚ new.
Proof.
  induction new as [|x new IH]; [done|].
  cbn. by rewrite sorted_insert_Permutation, IH.
Qed.

Lemma sorted_insert_stable (reverse : bool) (x : entry) (l : ledger) (p : Z) :
  filter (λ e, price e = p) (sorted_insert reverse x l)
  = filter (λ e, price e = p) (x :: l).
Proof.
  induction l as [|y l IH]; [done|]. cbn [sorted_insert].
  destruct (if reverse then _ else _) eqn:Hpass; [|done].
  assert (price x ≠ price y) as Hne by (destruct reverse; lia).
  rewrite filter_cons, IH, !filter_cons.
  destruct (decide (price y = p)), (decide (price x = p)); congruence.
Qed.

(** [sorted] is stable: the entries of one price keep the order they had. *)
Lemma sorted_stable (new : ledger) (reverse : bool) (p : Z) :
  filter (λ e, price e = p) (sorted new reverse) = filter (λ e, price e = p) new.
Proof.
  induction new as [|x new IH]; [done|].
  cbn [sorted foldr]. rewrite sorted_insert_stable, !filter_cons.
  fold (sorted new reverse). by rewrite IH.
Qed.

(** ** order_book *)

(** The bid ledger of the book is best first and so is its ask ledger. *)
Definition book_sorted (book : gmap string ledger) : Prop :=
  on_ledger descending (book !! "buy") ∧ on_ledger ascending (book !! "sell").

(** What the claims call the aged-and-sorted ledger: the side's ledger put
    through [add_book] with the new order, then through [sorted]. *)
Definition aged_and_sorted (book : gmap string ledger) (side : string)
    (order size : Z) : ledger :=
  sorted (add_book (default [] (book !! side)) order size default_age)
         (bool_decide (side = "buy")).

(** The book an order leaves behind when nothing that [clear_book] computes
    is stored. *)
Definition stored_after (stock_name : string) (book : gmap string ledger)
    (row : order_row) : gmap string ledger :=
  if decide (stock_name = row_stock row)
  then <[ row_side row :=
            aged_and_sorted book (row_side row) row.1.2 row.2 ]> book
  else book.

Lemma order_book_body_stored (book : gmap string ledger) (stock_name : string)
    (row : order_row) :
  (order_book_body book stock_name row).1 = stored_after stock_name book row.
Proof.
  destruct row as [[[[t stock] side] order] size].
  unfold order_book_body, stored_after, row_stock, row_side, aged_and_sorted.
  cbn [fst snd]. by destruct (decide (stock_name = stock)).
Qed.

Lemma order_book_body_snapshot (book : gmap string ledger) (stock_name : string)
    (row : order_row) (s : snapshot) :
  (order_book_body book stock_name row).2 = Ok s →
  s.1.1 = row_time row
  ∧ clear_book_kwargs (stored_after stock_name book row) = Ok (s.1.2, s.2).
Proof.
  rewrite <- order_book_body_stored.
  destruct row as [[[[t stock] side] order] size].
  unfold order_book_body, row_time. cbn [fst snd].
  destruct (clear_book_kwargs _) as [[bids asks]|]; [|done].
  by intros [= <-].
Qed.

Lemma order_book_cons (row : order_row) (orders : list order_row)
    (book : gmap string ledger) (stock_name : string) :
  order_book (row :: orders) book stock_name
  = match (order_book_body book stock_name row).2 with
    | Ok snap =>
        (snap :: (order_book orders (stored_after stock_name book row) stock_name).1,
         (order_book orders (stored_after stock_name book row) stock_name).2)
    | Raise e => ([], Raise e)
    end.
Proof.
  rewrite <- order_book_body_stored. cbn [order_book].
  destruct (order_book_body book stock_name row) as [book' [snap|e]]; [|done].
  cbn [fst snd]. by destruct (order_book orders book' stock_name).
Qed.

Lemma stored_after_sorted (stock_name : string) (book : gmap string ledger)
    (row : order_row) :
  book_sorted book → book_sorted (stored_after stock_name book row).
Proof.
  unfold stored_after. destruct (decide _); [|done].
  intros [Hbuy Hsell]. unfold book_sorted, aged_and_sorted.
  destruct (decide (row_side row = "buy")) as [->|Hnb].
  - rewrite lookup_insert_eq, lookup_insert_ne by done.
    split; [|done]. unfold on_ledger.
    rewrite bool_decide_eq_true_2 by done. apply sorted_descending.
  - rewrite (lookup_insert_ne _ _ "buy") by done.
    split; [done|].
    destruct (decide (row_side row = "sell")) as [->|Hns].
    + rewrite lookup_insert_eq. unfold on_ledger.
      rewrite bool_decide_eq_false_2 by done. apply sorted_ascending.
    + by rewrite lookup_insert_ne.
Qed.

Lemma clear_book_kwargs_sorted (book : gmap string ledger)
    (bids asks : option ledger) :
  book_sorted book →
  clear_book_kwargs book = Ok (bids, asks) →
  on_ledger descending bids ∧ on_ledger ascending asks.
Proof.
  intros [Hbuy Hsell]. unfold clear_book_kwargs.
  destruct (decide _); [|done].
  destruct (book !! "buy") as [buy|], (book !! "sell") as [sell|];
    try (by intros [= <- <-]).
  destruct (clear_book buy sell) as [[b a]|] eqn:Hcb; [|done].
  intros [= <- <-]. by eapply clear_book_sorted.
Qed.

Lemma clear_book_kwargs_ok (book : gmap string ledger) :
  dom book ⊆ {[ "buy"; "sell" ]} →
  ∃ bids asks, clear_book_kwargs book = Ok (bids, asks).
Proof.
  intros Hdom. unfold clear_book_kwargs. rewrite decide_True by done.
  destruct (book !! "buy") as [buy|], (book !! "sell") as [sell|]; eauto.
  destruct (clear_book_ok buy sell) as (b & a & ->). eauto.
Qed.

Lemma stored_after_dom (stock_name : string) (book : gmap string ledger)
    (row : order_row) :
  dom book ⊆ {[ "buy"; "sell" ]} →
  (row_stock row = stock_name → known_side (row_side row)) →
  dom (stored_after stock_name book row) ⊆ {[ "buy"; "sell" ]}.
Proof.
  intros Hdom Hside. unfold stored_after.
  destruct (decide _) as [Heq|]; [|done].
  rewrite dom_insert_L. apply union_subseteq. split; [|done].
  apply singleton_subseteq_l, elem_of_union.
  rewrite !elem_of_singleton. by apply Hside.
Qed.

Lemma order_book_final (orders : list order_row) (book : gmap string ledger)
    (stock_name : string) (final : gmap string ledger) :
  (order_book orders book stock_name).2 = Ok final →
  final = foldl (stored_after stock_name) book orders.
Proof.
  revert book. induction orders as [|row orders IH]; intros book.
  - cbn. by intros [= <-].
  - rewrite order_book_cons.
    destruct (order_book_body book stock_name row).2; [|done].
    cbn [snd foldl]. apply IH.
Qed.

Lemma order_book_snapshot_lookup (orders : list order_row)
    (book : gmap string ledger) (stock_name : string) (i : nat) (s : snapshot) :
  (order_book orders book stock_name).1 !! i = Some s →
  ∃ row, orders !! i = Some row
         ∧ s.1.1 = row_time row
         ∧ clear_book_kwargs
             (foldl (stored_after stock_name) book (take (S i) orders))
           = Ok (s.1.2, s.2).
Proof.
  revert book i. induction orders as [|row orders IH]; intros book i; [done|].
  rewrite order_book_cons.
  destruct (order_book_body book stock_name row).2 as [s0|] eqn:Hbody; [|done].
  cbn [fst]. destruct i as [|i].
  - cbn. intros [= ->]. exists row.
    by apply order_book_body_snapshot in Hbody as [? ?].
  - cbn [lookup list_lookup]. intros (row' & ? & ? & ?)%IH. by exists row'.
Qed.

Lemma order_book_body_ok (book : gmap string ledger) (stock_name : string)
    (row : order_row) :
  dom book ⊆ {[ "buy"; "sell" ]} →
  (row_stock row = stock_name → known_side (row_side row)) →
  ∃ s, (order_book_body book stock_name row).2 = Ok s ∧ s.1.1 = row_time row.
Proof.
  intros Hdom Hside.
  destruct (clear_book_kwargs_ok (stored_after stock_name book row))
    as (bids & asks & Hkw); [by apply stored_after_dom|].
  rewrite <- order_book_body_stored in Hkw.
  destruct row as [[[[t stock] side] order] size].
  unfold order_book_body in *. cbn [fst snd] in *. rewrite Hkw.
  by exists (t, bids, asks).
Qed.

(** C1 at the failing input: a bid of 5 at 100, then an ask of 3 at 90.
    The bid is larger than all the asks it crosses, [clear_order] returns
    None, [clear_book] breaks, and the second snapshot has its best bid at or
    above its best ask. *)
Theorem order_book_crossed_snapshot :
  let snaps :=
    (order_book [(1, "DOGE", "buy", 100, 5); (2, "DOGE", "sell", 90, 3)]
                empty_book "DOGE").1 in
  snaps = [(1, Some [(100, 5, 10)], Some []);
           (2, Some [(100, 5, 10)], Some [(90, 3, 10)])]
  ∧ ∃ s b bids a asks,
      s ∈ snaps ∧ snap_bids s = Some (b :: bids)
      ∧ snap_asks s = Some (a :: asks) ∧ price a ≤ price b.
Proof.
  split; [reflexivity|].
  exists (2, Some [(100, 5, 10)], Some [(90, 3, 10)]),
    (100, 5, 10), [], (90, 3, 10), [].
  split; [|done]. apply list_elem_of_further, list_elem_of_here.
Qed.

(** C2, as the code has it: the first snapshot is as the scenario says.
    The sell order is stored as (90,3,10) and the stored bid stays
    (100,5,10): an insertion on the sell side does not age a bid, and
    uncrossing takes bids off whole, so the bid ledger of the second snapshot
    is [(100,5,10)] or empty. *)
Theorem scenario_bid_then_ask :
  let run :=
    order_book [(1, "DOGE", "buy", 100, 5); (2, "DOGE", "sell", 90, 3)]
               empty_book "DOGE" in
  ∃ bids asks,
    run.1 = [(1, Some [(100, 5, 10)], Some []); (2, Some bids, asks)]
    ∧ (bids = [(100, 5, 10)] ∨ bids = [])
    ∧ run.2 = Ok {[ "buy" := [(100, 5, 10)]; "sell" := [(90, 3, 10)] ]}.
Proof.
  exists [(100, 5, 10)], (Some [(90, 3, 10)]).
  split; [reflexivity|]. split; [by left|]. vm_compute. reflexivity.
Qed.

(** C2 as stated fails: the second snapshot is not bids=[(100,2,9)] with
    empty asks. *)
Lemma scenario_bid_not_partially_filled :
  (order_book [(1, "DOGE", "buy", 100, 5); (2, "DOGE", "sell", 90, 3)]
              empty_book "DOGE").1
  = [(1, Some [(100, 5, 10)], Some []);
     (2, Some [(100, 5, 10)], Some [(90, 3, 10)])]
  ∧ (order_book [(1, "DOGE", "buy", 100, 5); (2, "DOGE", "sell", 90, 3)]
                empty_book "DOGE").1
    ≠ [(1, Some [(100, 5, 10)], Some []); (2, Some [(100, 2, 9)], Some [])].
Proof. split; [reflexivity|]. vm_compute. discriminate. Qed.

(** C3: nothing that [clear_book] returns is stored.  After any stream the
    book is the one built by aging and sorting alone, and the snapshot of
    each order is [clear_book] run afresh on the book so stored after that
    order.  An ask matched down to 2 in a snapshot is therefore still stored
    at 5, and is matched again by the same bid in the next snapshot. *)
Theorem order_book_never_stores_uncrossed (orders : list order_row)
    (book : gmap string ledger) (stock_name : string) :
  (∀ final, (order_book orders book stock_name).2 = Ok final →
            final = foldl (stored_after stock_name) book orders)
  ∧ (∀ (i : nat) s, (order_book orders book stock_name).1 !! i = Some s →
       ∃ row, orders !! i = Some row
              ∧ s.1.1 = row_time row
              ∧ clear_book_kwargs
                  (foldl (stored_after stock_name) book (take (S i) orders))
                = Ok (s.1.2, s.2))
  ∧ order_book [(1, "DOGE", "sell", 90, 5); (2, "DOGE", "buy", 100, 3);
                (3, "DOGE", "buy", 80, 1)] empty_book "DOGE"
    = ([(1, Some [], Some [(90, 5, 10)]);
        (2, Some [], Some [(90, 2, 10)]);
        (3, Some [(80, 1, 10)], Some [(90, 2, 10)])],
       Ok {[ "buy" := [(100, 3, 9); (80, 1, 10)]; "sell" := [(90, 5, 10)] ]}).
Proof.
  split; [|split].
  - intros final. apply order_book_final.
  - intros i s. apply order_book_snapshot_lookup.
  - vm_compute. reflexivity.
Qed.

Lemma order_book_never_stores_uncrossed_witness :
  ({[ "buy" := [(100, 3, 10)]; "sell" := [(90, 5, 10)] ]} : gmap string ledger)
  = foldl (stored_after "DOGE") empty_book
          [(1, "DOGE", "sell", 90, 5); (2, "DOGE", "buy", 100, 3)].
Proof.
  apply (proj1 (order_book_never_stores_uncrossed
                  [(1, "DOGE", "sell", 90, 5); (2, "DOGE", "buy", 100, 3)]
                  empty_book "DOGE")).
  vm_compute. reflexivity.
Defined.

(** C7, as the code has it: the [yield] is outside the test on the stock,
    so the generator yields one snapshot for every order of the stream,
    whatever its instrument, with that order's timestamp, provided the book
    has no key besides "buy" and "sell" and the orders of the instrument
    have one of these two sides (any other key is a TypeError). *)
Theorem order_book_snapshot_per_order (orders : list order_row)
    (book : gmap string ledger) (stock_name : string) :
  dom book ⊆ {[ "buy"; "sell" ]} →
  Forall (λ row, row_stock row = stock_name → known_side (row_side row)) orders →
  ∃ snaps final,
    order_book orders book stock_name = (snaps, Ok final)
    ∧ length snaps = length orders
    ∧ (λ s : snapshot, s.1.1) <$> snaps = row_time <$> orders.
Proof.
  revert book. induction orders as [|row orders IH]; intros book Hdom Hrows.
  - by exists [], book.
  - apply Forall_cons in Hrows as [Hrow Hrows].
    destruct (order_book_body_ok book stock_name row Hdom Hrow) as (s & Hs & Ht).
    destruct (IH (stored_after stock_name book row)) as (snaps & final & Heq & Hlen & Hts);
      [by apply stored_after_dom|done|].
    exists (s :: snaps), final. rewrite order_book_cons, Hs, Heq. cbn [fst snd].
    split; [done|]. split; [by rewrite !length_cons, Hlen|].
    by rewrite !fmap_cons, Ht, Hts.
Qed.

Lemma order_book_snapshot_per_order_witness :
  ∃ snaps final,
    order_book [(1, "BTC", "hold", 7, 7); (2, "DOGE", "sell", 90, 3)]
               empty_book "DOGE" = (snaps, Ok final)
    ∧ length snaps = length [(1, "BTC", "hold", 7, 7); (2, "DOGE", "sell", 90, 3)]
    ∧ (λ s : snapshot, s.1.1) <$> snaps
      = row_time <$> [(1, "BTC", "hold", 7, 7); (2, "DOGE", "sell", 90, 3)].
Proof.
  apply order_book_snapshot_per_order.
  - apply (bool_decide_unpack _). vm_compute. exact I.
  - apply Forall_cons. split; [intros [=]|].
    apply Forall_cons. split; [intros _; by right|]. apply Forall_nil_2.
Defined.

(** C7 as stated fails: an order of another instrument yields a snapshot. *)
Lemma order_book_snapshot_for_other_stock :
  (order_book [(1, "BTC", "buy", 100, 5)] empty_book "DOGE").1
  = [(1, Some [], Some [])]
  ∧ length (order_book [(1, "BTC", "buy", 100, 5)] empty_book "DOGE").1
    ≠ length (filter (λ row, row_stock row = "DOGE") [(1, "BTC", "buy", 100, 5)]).
Proof. split; [reflexivity|]. vm_compute. discriminate. Qed.

(** C8, as the code has it: [sorted] orders by price and keeps entries of
    equal price, so from a book whose ledgers are best first every snapshot
    has its bids in descending and its asks in ascending order of price,
    equal prices allowed. *)
Theorem order_book_snapshots_sorted (orders : list order_row)
    (book : gmap string ledger) (stock_name : string) :
  on_ledger descending (book !! "buy") →
  on_ledger ascending (book !! "sell") →
  Forall (λ s, on_ledger descending (snap_bids s)
               ∧ on_ledger ascending (snap_asks s))
         (order_book orders book stock_name).1.
Proof.
  intros Hbuy Hsell. assert (book_sorted book) as Hbook by done.
  clear Hbuy Hsell. revert book Hbook.
  induction orders as [|row orders IH]; intros book Hbook; [constructor|].
  rewrite order_book_cons.
  destruct (order_book_body book stock_name row).2 as [s|] eqn:Hbody;
    [|constructor].
  apply order_book_body_snapshot in Hbody as [_ Hkw].
  pose proof (stored_after_sorted stock_name book row Hbook) as Hstored.
  cbn [fst]. constructor; [|by apply IH].
  by eapply clear_book_kwargs_sorted.
Qed.

Lemma order_book_snapshots_sorted_witness :
  Forall (λ s, on_ledger descending (snap_bids s)
               ∧ on_ledger ascending (snap_asks s))
         (order_book [(1, "DOGE", "buy", 100, 5); (2, "DOGE", "buy", 100, 3);
                      (3, "DOGE", "sell", 99, 4)] empty_book "DOGE").1.
Proof.
  apply order_book_snapshots_sorted; vm_compute; constructor.
Defined.

(** C8 as stated fails: two bids at one price are both kept, side by side. *)
Lemma order_book_equal_prices_kept :
  (order_book [(1, "DOGE", "buy", 100, 5); (2, "DOGE", "buy", 100, 3)]
              empty_book "DOGE").1
  = [(1, Some [(100, 5, 10)], Some []);
     (2, Some [(100, 3, 10); (100, 5, 9)], Some [])]
  ∧ ¬ Forall (λ s, on_ledger strictly_descending (snap_bids s)
                   ∧ on_ledger strictly_ascending (snap_asks s))
        (order_book [(1, "DOGE", "buy", 100, 5); (2, "DOGE", "buy", 100, 3)]
                    empty_book "DOGE").1.
Proof.
  split; [reflexivity|].
  replace (order_book _ _ _).1
    with ([(1, Some [(100, 5, 10)], Some []);
           (2, Some [(100, 3, 10); (100, 5, 9)], Some [])] : list snapshot)
    by reflexivity.
  intros Hall. apply Forall_cons in Hall as [_ Hall].
  apply Forall_cons in Hall as [[Hbids _] _].
  cbn in Hbids. apply StronglySorted_cons in Hbids as [Hhd _].
  apply Forall_cons in Hhd as [Hlt _]. unfold price in Hlt. cbn in Hlt. lia.
Qed.

(** * Further properties of the engine *)

(** ** What a successful clear_order has done *)

(** The resting size and the notional of a run of entries taken whole. *)
Definition sum_sizes (l : ledger) : Z := foldr (λ e acc, esize e + acc) 0 l.
Definition notional_of (l : ledger) : Z :=
  foldr (λ e acc, esize e * price e + acc) 0 l.

(** The incoming order crosses the entry. *)
Definition crosses (op : Z → Z → bool) (order : Z) (e : entry) : Prop :=
  op order (price e) = true.

(** The entries of [pre] are taken whole, one after the other, by an
    incoming order of that size: each one fits in what is left of it. *)
Definition taken_whole (size : Z) (pre : ledger) : Prop :=
  ∀ k, k `prefix_of` pre → k ≠ [] → sum_sizes k ≤ size.

Lemma sum_sizes_cons (e : entry) (l : ledger) :
  sum_sizes (e :: l) = esize e + sum_sizes l.
Proof. done. Qed.

Lemma notional_of_cons (e : entry) (l : ledger) :
  notional_of (e :: l) = esize e * price e + notional_of l.
Proof. done. Qed.

Lemma taken_whole_cons (size : Z) (e : entry) (pre : ledger) :
  taken_whole size (e :: pre)
  ↔ esize e ≤ size ∧ taken_whole (size - esize e) pre.
Proof.
  unfold taken_whole. split.
  - intros Hall. split.
    + specialize (Hall [e]). rewrite sum_sizes_cons in Hall.
      change (sum_sizes []) with 0 in Hall.
      assert (esize e + 0 ≤ size); [|lia].
      apply Hall; [|done]. by apply prefix_cons, prefix_nil.
    + intros k Hk Hne. specialize (Hall (e :: k)).
      rewrite sum_sizes_cons in Hall.
      assert (esize e + sum_sizes k ≤ size); [|lia].
      apply Hall; [|done]. by apply prefix_cons.
  - intros [He Hall] k Hk Hne.
    destruct k as [|e' k]; [done|].
    apply prefix_cons_inv_1 in Hk as Heq. subst e'.
    apply prefix_cons_inv_2 in Hk. rewrite sum_sizes_cons.
    destruct k as [|e' k]; [change (sum_sizes []) with 0; lia|].
    specialize (Hall (e' :: k) Hk).
    assert (sum_sizes (e' :: k) ≤ size - esize e); [by apply Hall|lia].
Qed.

Lemma clear_order_some_inv (order size : Z) (book : ledger)
    (op : Z → Z → bool) (n m : Z) (bk : ledger) :
  clear_order order size book op n = Ok (Some (m, bk)) →
  ∃ pre e tail,
    book = pre ++ e :: tail
    ∧ Forall (crosses op order) (pre ++ [e])
    ∧ taken_whole size pre
    ∧ size - sum_sizes pre < esize e
    ∧ bk = (price e, esize e - (size - sum_sizes pre), life e)
             :: add_book_rest tail
    ∧ m = n + notional_of pre + (size - sum_sizes pre) * price e.
Proof.
  revert size n m bk. induction book as [|[[p s] a] tail IH]; [done|].
  intros size n m bk. cbn [clear_order].
  destruct (op order p) eqn:Hop; [|done].
  destruct (Z.ltb_spec 0 (s - size)) as [Hpos|Hneg].
  - intros [= <- <-]. exists [], (p, s, a), tail.
    unfold esize, price, life, taken_whole. cbn.
    split; [done|]. split; [by repeat constructor|].
    split; [intros k Hk Hne; by apply prefix_nil_inv in Hk|].
    split; [lia|]. split; [unfold add_book; do 3 f_equal; lia|].
    rewrite Z.min_l by lia. lia.
  - destruct (0 <? length tail)%nat; [|done].
    intros (pre & e & tl & -> & Hcross & Hwhole & Hlt & -> & ->)%IH.
    exists ((p, s, a) :: pre), e, tl.
    split; [done|]. split; [by constructor|].
    rewrite sum_sizes_cons, notional_of_cons.
    change (esize (p, s, a)) with s. change (price (p, s, a)) with p.
    replace (size - (s + sum_sizes pre)) with (- (s - size) - sum_sizes pre)
      by lia.
    split; [apply taken_whole_cons; change (esize (p, s, a)) with s;
            split; [lia|by replace (size - s) with (- (s - size)) by lia]|].
    split; [done|]. split; [done|].
    rewrite Z.min_r by lia. lia.
Qed.

Lemma clear_order_some_intro (order size : Z) (pre : ledger) (e : entry)
    (tail : ledger) (op : Z → Z → bool) (n : Z) :
  Forall (crosses op order) (pre ++ [e]) →
  taken_whole size pre →
  size - sum_sizes pre < esize e →
  clear_order order size (pre ++ e :: tail) op n
  = Ok (Some (n + notional_of pre + (size - sum_sizes pre) * price e,
              (price e, esize e - (size - sum_sizes pre), life e)
                :: add_book_rest tail)).
Proof.
  revert size n. induction pre as [|[[p s] a] pre IH]; intros size n.
  - destruct e as [[p s] a].
    change (esize (p, s, a)) with s. change (price (p, s, a)) with p.
    change (life (p, s, a)) with a. change (sum_sizes []) with 0.
    change (notional_of []) with 0.
    intros [Hop _]%Forall_cons _ Hlt. change (op order p = true) in Hop.
    cbn [app clear_order]. rewrite Hop.
    destruct (Z.ltb_spec 0 (s - size)); [|lia].
    rewrite Z.min_l by lia. unfold add_book.
    replace (size - 0) with size by lia.
    by replace (n + 0 + size * p) with (n + size * p) by lia.
  - intros [Hop Hcross]%Forall_cons [Hfit Hwhole]%taken_whole_cons Hlt.
    rewrite sum_sizes_cons in Hlt. rewrite sum_sizes_cons, notional_of_cons.
    change (esize (p, s, a)) with s in *. change (price (p, s, a)) with p.
    change (op order p = true) in Hop.
    cbn [app clear_order]. rewrite Hop.
    destruct (Z.ltb_spec 0 (s - size)); [lia|].
    rewrite length_app. cbn [length].
    destruct (Nat.ltb_spec 0 (length pre + S (length tail))); [|lia].
    replace (- (s - size)) with (size - s) by lia.
    rewrite IH; [|done|done|lia].
    rewrite Z.min_r by lia.
    replace (size - (s + sum_sizes pre)) with (size - s - sum_sizes pre) by lia.
    do 3 f_equal. lia.
Qed.

(** X1: [clear_order] returns a pair exactly when the incoming order is
    filled completely by a front run of crossing entries: the entries before
    the last one are taken whole, the last one is larger than what is left
    of the order and stays, reduced by it and with its life, at the front of
    the aged tail.  The notional of the pair is left open. *)
Theorem clear_order_pair_iff_filled (order size : Z) (book : ledger)
    (op : Z → Z → bool) (n : Z) (bk : ledger) :
  (∃ m, clear_order order size book op n = Ok (Some (m, bk)))
  ↔ ∃ pre e tail,
      book = pre ++ e :: tail
      ∧ Forall (crosses op order) (pre ++ [e])
      ∧ taken_whole size pre
      ∧ size - sum_sizes pre < esize e
      ∧ bk = (price e, esize e - (size - sum_sizes pre), life e)
               :: add_book_rest tail.
Proof.
  split.
  - intros [m Hco]. apply clear_order_some_inv in Hco
      as (pre & e & tail & Hbook & Hcross & Hwhole & Hlt & Hbk & _).
    by exists pre, e, tail.
  - intros (pre & e & tail & -> & Hcross & Hwhole & Hlt & ->).
    eexists. by apply clear_order_some_intro.
Qed.

Lemma add_book_rest_length (book : ledger) :
  (length (add_book_rest book) ≤ length book)%nat.
Proof. rewrite add_book_rest_filter, length_fmap. apply length_filter. Qed.

Lemma clear_order_some_front (order size : Z) (book : ledger)
    (op : Z → Z → bool) (n m : Z) (bk : ledger) :
  clear_order order size book op n = Ok (Some (m, bk)) →
  (∃ e rest, bk = e :: rest ∧ 0 < esize e)
  ∧ (length bk ≤ length book)%nat.
Proof.
  intros (pre & e & tail & -> & _ & _ & Hlt & -> & _)%clear_order_some_inv.
  split.
  - eexists _, _. split; [done|]. unfold esize at 1. cbn. lia.
  - rewrite length_app. cbn [length].
    pose proof (add_book_rest_length tail). lia.
Qed.

(** ** What clear_book keeps of the ask ledger *)

(** A property of ask ledgers that every successful [clear_order] keeps is
    kept by [clear_book]. *)
Lemma clear_book_asks_inv (Q : ledger → Prop) (buy sell bids asks : ledger) :
  (∀ order size book m bk,
     Q book → clear_order order size book ge 0 = Ok (Some (m, bk)) → Q bk) →
  Q sell → clear_book buy sell = Ok (bids, asks) → Q asks.
Proof.
  intros Hstep. revert sell. induction buy as [|[[o s] a] buy IH]; intros sell.
  - cbn. by intros ? [= <- <-].
  - destruct sell as [|e sell]; [cbn; by intros ? [= <- <-]|].
    cbn [clear_book].
    destruct (clear_order o s (e :: sell) ge 0) as [[[m bk]|]|] eqn:Hco;
      [| |done].
    + intros HQ. apply IH. by eapply Hstep.
    + by intros ? [= <- <-].
Qed.

Lemma clear_book_matched (buy sell bids asks : ledger) :
  clear_book buy sell = Ok (bids, asks) →
  (bids, asks) = (buy, sell) ∨ ∃ a rest, asks = a :: rest ∧ 0 < esize a.
Proof.
  revert sell. induction buy as [|[[o s] a] buy IH]; intros sell.
  - cbn. intros [= <- <-]. by left.
  - destruct sell as [|e sell]; [cbn; intros [= <- <-]; by left|].
    cbn [clear_book].
    destruct (clear_order o s (e :: sell) ge 0) as [[[m bk]|]|] eqn:Hco;
      [| |done].
    + intros [[= -> ->]|Hfront]%IH; [|by right].
      right. by apply clear_order_some_front in Hco as [? _].
    + intros [= <- <-]. by left.
Qed.

(** X2: uncrossing never empties the ask ledger and never lengthens it: an
    ask ledger that has an entry on the way in has one on the way out, and
    unless both ledgers come back as they were the front ask has a positive
    size. *)
Theorem clear_book_keeps_asks (buy sell bids asks : ledger) :
  sell ≠ [] →
  clear_book buy sell = Ok (bids, asks) →
  asks ≠ []
  ∧ (length asks ≤ length sell)%nat
  ∧ ((bids, asks) = (buy, sell) ∨ ∃ a rest, asks = a :: rest ∧ 0 < esize a).
Proof.
  intros Hne Hcb. split; [|split].
  - destruct (clear_book_matched _ _ _ _ Hcb) as [[= _ ->]|(a & rest & -> & _)];
      done.
  - revert Hcb.
    apply (clear_book_asks_inv (λ l, (length l ≤ length sell)%nat)); [|done].
    intros order size book m bk Hlen [_ Hle]%clear_order_some_front. lia.
  - by apply clear_book_matched.
Qed.

Lemma clear_book_keeps_asks_witness :
  [(90, 2, 7); (95, 4, 0)] ≠ []
  ∧ (length [(90, 2, 7); (95, 4, 0)]
     ≤ length [(90, 5, 7); (95, 4, 1); (96, 1, 0)])%nat
  ∧ (([(80, 1, 3)], [(90, 2, 7); (95, 4, 0)])
     = ([(100, 3, 9); (80, 1, 3)], [(90, 5, 7); (95, 4, 1); (96, 1, 0)])
     ∨ ∃ a rest, [(90, 2, 7); (95, 4, 0)] = a :: rest ∧ 0 < esize a).
Proof.
  apply (clear_book_keeps_asks [(100, 3, 9); (80, 1, 3)]
           [(90, 5, 7); (95, 4, 1); (96, 1, 0)]); [done|reflexivity].
Defined.

(** ** Invariants of the stream *)

(** A property of snapshots follows from a property of the book that each
    stored order keeps, whatever the rows of the stream satisfy. *)
Lemma order_book_snapshots_inv (I : gmap string ledger → Prop)
    (R : order_row → Prop) (P : snapshot → Prop) (stock_name : string) :
  (∀ book row, R row → I book → I (stored_after stock_name book row)) →
  (∀ book t bids asks,
     I book → clear_book_kwargs book = Ok (bids, asks) → P (t, bids, asks)) →
  ∀ orders book, Forall R orders → I book →
    Forall P (order_book orders book stock_name).1.
Proof.
  intros Hstore Hsnap orders.
  induction orders as [|row orders IH]; intros book Hrows Hbook; [constructor|].
  apply Forall_cons in Hrows as [Hrow Hrows].
  rewrite order_book_cons.
  destruct (order_book_body book stock_name row).2 as [s|] eqn:Hbody;
    [|constructor].
  apply order_book_body_snapshot in Hbody as [_ Hkw].
  cbn [fst]. constructor; [|by apply IH; [|apply Hstore]].
  destruct s as [[t bids] asks]. eapply Hsnap; [|exact Hkw]. by apply Hstore.
Qed.

(** A property of the two stored ledgers, indexed by the sort direction, is
    kept by a stored order when the empty ledger has it and one insertion
    with its sort keeps it. *)
Lemma stored_after_sides (P : bool → ledger → Prop) (stock_name : string)
    (book : gmap string ledger) (row : order_row) :
  (∀ rev l, P rev l →
     P rev (sorted (add_book l row.1.2 row.2 default_age) rev)) →
  P true [] → P false [] →
  on_ledger (P true) (book !! "buy") ∧ on_ledger (P false) (book !! "sell") →
  on_ledger (P true) (stored_after stock_name book row !! "buy")
  ∧ on_ledger (P false) (stored_after stock_name book row !! "sell").
Proof.
  intros Hstep Hnil_t Hnil_f [Hbuy Hsell].
  unfold stored_after. destruct (decide _); [|done]. unfold aged_and_sorted.
  destruct (decide (row_side row = "buy")) as [->|Hnb].
  - rewrite lookup_insert_eq, lookup_insert_ne by done.
    split; [|done]. unfold on_ledger.
    rewrite bool_decide_eq_true_2 by done. apply Hstep.
    by destruct (book !! "buy").
  - rewrite (lookup_insert_ne _ _ "buy") by done. split; [done|].
    destruct (decide (row_side row = "sell")) as [->|Hns].
    + rewrite lookup_insert_eq. unfold on_ledger.
      rewrite bool_decide_eq_false_2 by done. apply Hstep.
      by destruct (book !! "sell").
    + by rewrite lookup_insert_ne.
Qed.

Lemma clear_book_kwargs_inv (P Q : ledger → Prop) (book : gmap string ledger)
    (bids asks : option ledger) :
  (∀ l k, l `suffix_of` k → P k → P l) →
  (∀ order size bk0 m bk,
     Q bk0 → clear_order order size bk0 ge 0 = Ok (Some (m, bk)) → Q bk) →
  on_ledger P (book !! "buy") → on_ledger Q (book !! "sell") →
  clear_book_kwargs book = Ok (bids, asks) →
  on_ledger P bids ∧ on_ledger Q asks.
Proof.
  intros Hsuf Hstep Hbuy Hsell. unfold clear_book_kwargs.
  destruct (decide _); [|done].
  destruct (book !! "buy") as [buy|], (book !! "sell") as [sell|];
    try (by intros [= <- <-]).
  destruct (clear_book buy sell) as [[b a]|] eqn:Hcb; [|done].
  intros [= <- <-]. split.
  - eapply Hsuf; [by eapply clear_book_suffix|done].
  - exact (clear_book_asks_inv Q buy sell b a Hstep Hsell Hcb).
Qed.

(** ** Lives and sizes along the stream *)

(** The lives on a side after [n] insertions on it: 10, 9, ... down to 0 at
    most. *)
Definition lives_after (n : nat) : list Z :=
  (λ j : nat, 10 - Z.of_nat j) <$> seq 0 (n `min` 11).

(** What the loop of [add_book] does to the lives of a ledger. *)
Definition age_lives (l : list Z) : list Z :=
  (λ a, a - 1) <$> filter (λ a, 0 < a) l.

(** The lives of the ledger are those of some number of insertions into an
    empty one. *)
Definition fresh (l : ledger) : Prop := ∃ n, life <$> l ≡ₚ lives_after n.

(** At most eleven entries, each with a life from 0 to 10. *)
Definition bounded (l : ledger) : Prop :=
  (length l ≤ 11)%nat ∧ Forall (λ e, 0 ≤ life e ≤ 10) l.

Definition nonneg (l : ledger) : Prop := Forall (λ e, 0 ≤ esize e) l.

(** The row is an order of the instrument on that side. *)
Definition on_side (stock_name side : string) (row : order_row) : Prop :=
  stock_name = row_stock row ∧ row_side row = side.

#[global] Instance on_side_dec (stock_name side : string) (row : order_row) :
  Decision (on_side stock_name side row).
Proof. unfold on_side. apply _. Defined.

Lemma life_add_book_rest (l : ledger) :
  life <$> add_book_rest l = age_lives (life <$> l).
Proof.
  unfold age_lives. induction l as [|[[o s] a] l IH]; [done|].
  cbn [add_book_rest]. rewrite fmap_cons, filter_cons.
  change (life (o, s, a)) with a.
  destruct (decide (0 < a)), (Z.ltb_spec 0 a); try lia.
  - by rewrite !fmap_cons, IH.
  - done.
Qed.

Lemma age_lives_Permutation (l k : list Z) :
  l ≡ₚ k → age_lives l ≡ₚ age_lives k.
Proof. intros Hlk. unfold age_lives. by rewrite Hlk. Qed.

Lemma lives_after_S (n : nat) :
  lives_after (S n) = 10 :: age_lives (lives_after n).
Proof.
  do 12 (destruct n as [|n]; [vm_compute; reflexivity|]).
  unfold lives_after.
  replace (S (S (S (S (S (S (S (S (S (S (S (S (S n)))))))))))) `min` 11)%nat
    with 11%nat by lia.
  replace (S (S (S (S (S (S (S (S (S (S (S (S n))))))))))) `min` 11)%nat
    with 11%nat by lia.
  vm_compute. reflexivity.
Qed.

Lemma lives_after_length (n : nat) : length (lives_after n) = (n `min` 11)%nat.
Proof. unfold lives_after. by rewrite length_fmap, length_seq. Qed.

Lemma lives_after_range (n : nat) : Forall (λ a, 0 ≤ a ≤ 10) (lives_after n).
Proof.
  unfold lives_after. apply Forall_fmap, Forall_forall.
  intros j Hj%elem_of_seq. cbn. lia.
Qed.

Lemma lives_after_insert (l : ledger) (n : nat) (order size : Z) (rev : bool) :
  life <$> l ≡ₚ lives_after n →
  life <$> sorted (add_book l order size default_age) rev ≡ₚ lives_after (S n).
Proof.
  intros Hl. rewrite sorted_Permutation. unfold add_book.
  rewrite fmap_cons, life_add_book_rest, lives_after_S.
  change (life (order, size, default_age)) with 10.
  apply Permutation_skip. by apply age_lives_Permutation.
Qed.

Lemma fresh_bounded (l : ledger) : fresh l → bounded l.
Proof.
  intros [n Hn]. split.
  - rewrite <- (length_fmap life), Hn, lives_after_length. lia.
  - pose proof (lives_after_range n) as Hrange. rewrite <- Hn in Hrange.
    by apply Forall_fmap in Hrange.
Qed.

Lemma bounded_suffix (l k : ledger) : l `suffix_of` k → bounded k → bounded l.
Proof.
  intros Hsuf [Hlen Hall]. split.
  - apply suffix_length in Hsuf. lia.
  - destruct Hsuf as [k' ->]. by apply Forall_app in Hall as [_ ?].
Qed.

Lemma clear_order_bounded (order size : Z) (book : ledger) (m : Z)
    (bk : ledger) :
  bounded book → clear_order order size book ge 0 = Ok (Some (m, bk)) →
  bounded bk.
Proof.
  intros [Hlen Hall] Hco. split.
  - apply clear_order_some_front in Hco as [_ ?]. lia.
  - apply clear_order_some_inv in Hco
      as (pre & e & tail & -> & _ & _ & _ & -> & _).
    apply Forall_app in Hall as [_ [He Htail]%Forall_cons].
    apply Forall_cons. split; [done|].
    apply Forall_forall. intros x (e0 & Hin & Hpos & ->)%add_book_rest_elem.
    rewrite Forall_forall in Htail. specialize (Htail e0 Hin).
    unfold older, life in *. cbn. lia.
Qed.

Lemma clear_order_nonneg (order size : Z) (book : ledger) (m : Z)
    (bk : ledger) :
  nonneg book → clear_order order size book ge 0 = Ok (Some (m, bk)) →
  nonneg bk.
Proof.
  intros Hall (pre & e & tail & -> & _ & _ & Hlt & -> & _)%clear_order_some_inv.
  apply Forall_app in Hall as [_ [He Htail]%Forall_cons].
  apply Forall_cons. split; [unfold esize at 1; cbn; lia|].
  apply Forall_forall. intros x (e0 & Hin & _ & ->)%add_book_rest_elem.
  rewrite Forall_forall in Htail. change (0 ≤ esize e0). by apply Htail.
Qed.


(** X3: from the empty book every ledger of every snapshot has at most
    eleven entries, each with a life from 0 to 10, whatever the stream. *)
Theorem order_book_snapshots_bounded (orders : list order_row)
    (stock_name : string) :
  Forall (λ s, on_ledger bounded (snap_bids s)
               ∧ on_ledger bounded (snap_asks s))
         (order_book orders empty_book stock_name).1.
Proof.
  apply (order_book_snapshots_inv
           (λ book, on_ledger fresh (book !! "buy")
                    ∧ on_ledger fresh (book !! "sell"))
           (λ _, True)).
  - intros book row _. apply (stored_after_sides (λ _, fresh)).
    + intros rev l [n Hn]. exists (S n). by apply lives_after_insert.
    + by exists 0%nat.
    + by exists 0%nat.
  - intros book t bids asks [Hbuy Hsell].
    apply clear_book_kwargs_inv.
    + apply bounded_suffix.
    + intros order size bk0 m bk. apply clear_order_bounded.
    + destruct (book !! "buy"); [by apply fresh_bounded|done].
    + destruct (book !! "sell"); [by apply fresh_bounded|done].
  - by apply Forall_true.
  - split; by exists 0%nat.
Qed.

Lemma stored_after_lookup (stock_name side : string)
    (book : gmap string ledger) (row : order_row) :
  stored_after stock_name book row !! side
  = if decide (on_side stock_name side row)
    then Some (aged_and_sorted book side row.1.2 row.2)
    else book !! side.
Proof.
  unfold stored_after, on_side.
  destruct (decide (stock_name = row_stock row)) as [Hst|Hst].
  - destruct (decide (row_side row = side)) as [<-|Hsd].
    + rewrite lookup_insert_eq. by rewrite decide_True.
    + rewrite lookup_insert_ne by done. rewrite decide_False; [done|tauto].
  - rewrite decide_False; [done|tauto].
Qed.




(** X5: sizes never turn negative: when the orders of the stream and the
    entries of the book have sizes of 0 or more, so has every entry of every
    snapshot. *)
Theorem order_book_sizes_nonneg (orders : list order_row)
    (book : gmap string ledger) (stock_name : string) :
  Forall (λ row : order_row, 0 ≤ row.2) orders →
  on_ledger nonneg (book !! "buy") →
  on_ledger nonneg (book !! "sell") →
  Forall (λ s, on_ledger nonneg (snap_bids s) ∧ on_ledger nonneg (snap_asks s))
         (order_book orders book stock_name).1.
Proof.
  intros Hrows Hbuy Hsell.
  apply (order_book_snapshots_inv
           (λ book, on_ledger nonneg (book !! "buy")
                    ∧ on_ledger nonneg (book !! "sell"))
           (λ row : order_row, 0 ≤ row.2)); [| |done|done].
  - intros bk row Hrow. apply (stored_after_sides (λ _, nonneg)).
    + intros rev l Hl. unfold nonneg. rewrite sorted_Permutation.
      apply Forall_cons. split; [done|].
      apply Forall_forall. intros x (e0 & Hin & _ & ->)%add_book_rest_elem.
      unfold nonneg in Hl. rewrite Forall_forall in Hl.
      change (0 ≤ esize e0). by apply Hl.
    + constructor.
    + constructor.
  - intros bk t bids asks [Hb Hs]. apply clear_book_kwargs_inv; [| |done|done].
    + intros l k [k' ->]. unfold nonneg. by intros [_ ?]%Forall_app.
    + intros order size bk0 m bk'. apply clear_order_nonneg.
Qed.

Lemma order_book_sizes_nonneg_witness :
  Forall (λ s, on_ledger nonneg (snap_bids s) ∧ on_ledger nonneg (snap_asks s))
         (order_book [(1, "DOGE", "sell", 90, 5); (2, "DOGE", "buy", 100, 0)]
                     empty_book "DOGE").1.
Proof.
  apply order_book_sizes_nonneg.
  - apply Forall_cons. split; [done|]. apply Forall_cons. split; [done|].
    apply Forall_nil_2.
  - vm_compute. constructor.
  - vm_compute. constructor.
Defined.

(** ** Sides, keys and errors *)

Lemma foldl_stored_lookup_filter (stock_name side : string)
    (orders : list order_row) (book1 book2 : gmap string ledger) :
  book1 !! side = book2 !! side →
  foldl (stored_after stock_name) book1 orders !! side
  = foldl (stored_after stock_name) book2
      (filter (on_side stock_name side) orders) !! side.
Proof.
  revert book1 book2.
  induction orders as [|row orders IH]; intros book1 book2 Heq; [done|].
  cbn [foldl]. rewrite filter_cons.
  pose proof (stored_after_lookup stock_name side book1 row) as H1.
  pose proof (stored_after_lookup stock_name side book2 row) as H2.
  destruct (decide (on_side stock_name side row)).
  - cbn [foldl]. apply IH. rewrite H1, H2. unfold aged_and_sorted.
    by rewrite Heq.
  - apply IH. by rewrite H1.
Qed.

(** X6: the ledger stored for a side depends on the instrument's orders on
    that side alone: with every other order dropped from the stream (other
    instruments, the other side) the generator leaves the same ledger
    there. *)
Theorem order_book_side_independent (orders : list order_row)
    (book final final' : gmap string ledger) (stock_name side : string) :
  (order_book orders book stock_name).2 = Ok final →
  (order_book (filter (on_side stock_name side) orders) book stock_name).2
  = Ok final' →
  final !! side = final' !! side.
Proof.
  intros ->%order_book_final ->%order_book_final.
  by apply foldl_stored_lookup_filter.
Qed.

Lemma order_book_side_independent_witness :
  ({[ "buy" := [(100, 3, 9); (80, 1, 10)]; "sell" := [(90, 5, 10)] ]}
     : gmap string ledger) !! "buy"
  = ({[ "buy" := [(100, 3, 9); (80, 1, 10)]; "sell" := [] ]}
       : gmap string ledger) !! "buy".
Proof.
  apply (order_book_side_independent
           [(1, "DOGE", "sell", 90, 5); (2, "DOGE", "buy", 100, 3);
            (3, "BTC", "buy", 70, 1); (4, "DOGE", "buy", 80, 1)]
           empty_book _ _ "DOGE" "buy"); vm_compute; reflexivity.
Defined.

Lemma order_book_body_raises (book : gmap string ledger) (stock_name : string)
    (row : order_row) :
  ¬ dom (stored_after stock_name book row) ⊆ {[ "buy"; "sell" ]} →
  (order_book_body book stock_name row).2 = Raise TypeError.
Proof.
  rewrite <- order_book_body_stored.
  destruct row as [[[[t stock] side] order] size].
  unfold order_book_body. cbn [fst snd]. intros Hdom.
  unfold clear_book_kwargs. by rewrite decide_False.
Qed.

(** X7: an order of the instrument whose side is neither "buy" nor "sell"
    ends the generator with a TypeError: its side becomes a key of the book,
    which [clear_book] does not take.  The orders before it have had their
    snapshot, the order itself and those after it have none. *)
Theorem order_book_unknown_side (pre post : list order_row) (row : order_row)
    (book : gmap string ledger) (stock_name : string) :
  dom book ⊆ {[ "buy"; "sell" ]} →
  Forall (λ r, row_stock r = stock_name → known_side (row_side r)) pre →
  stock_name = row_stock row →
  ¬ known_side (row_side row) →
  ∃ snaps,
    order_book (pre ++ row :: post) book stock_name = (snaps, Raise TypeError)
    ∧ length snaps = length pre.
Proof.
  intros Hdom Hpre Hstock Hside. revert book Hdom.
  induction Hpre as [|r pre Hr Hpre IH]; intros book Hdom.
  - exists []. split; [|done]. cbn [app]. rewrite order_book_cons.
    rewrite order_book_body_raises; [done|].
    unfold stored_after. rewrite decide_True by done. rewrite dom_insert_L.
    intros Hsub. apply Hside.
    assert (row_side row ∈ ({[ "buy"; "sell" ]} : gset string)) as Hin.
    { apply Hsub, elem_of_union. left. by apply elem_of_singleton. }
    apply elem_of_union in Hin. by rewrite !elem_of_singleton in Hin.
  - destruct (order_book_body_ok book stock_name r Hdom Hr) as (s & Hs & _).
    destruct (IH (stored_after stock_name book r)) as (snaps & Heq & Hlen);
      [by apply stored_after_dom|].
    exists (s :: snaps). cbn [app]. rewrite order_book_cons, Hs, Heq.
    cbn [fst snd length]. by rewrite Hlen.
Qed.

Lemma order_book_unknown_side_witness :
  ∃ snaps,
    order_book ([(1, "DOGE", "buy", 100, 5)]
                  ++ (2, "DOGE", "hold", 90, 3) :: [(3, "DOGE", "sell", 90, 3)])
               empty_book "DOGE" = (snaps, Raise TypeError)
    ∧ length snaps = length [(1, "DOGE", "buy", 100, 5)].
Proof.
  apply order_book_unknown_side.
  - apply (bool_decide_unpack _). vm_compute. exact I.
  - apply Forall_cons. split; [intros _; by left|]. apply Forall_nil_2.
  - reflexivity.
  - intros [H|H]; discriminate H.
Defined.

(** X8: a book that comes with a key other than "buy" and "sell" ends the
    generator with a TypeError at the first order, before any snapshot. *)
Theorem order_book_foreign_key (row : order_row) (orders : list order_row)
    (book : gmap string ledger) (stock_name : string) :
  ¬ dom book ⊆ {[ "buy"; "sell" ]} →
  order_book (row :: orders) book stock_name = ([], Raise TypeError).
Proof.
  intros Hdom. rewrite order_book_cons, order_book_body_raises; [done|].
  intros Hsub. apply Hdom. unfold stored_after in Hsub.
  destruct (decide _); [|done].
  rewrite dom_insert_L in Hsub.
  etrans; [|exact Hsub]. apply union_subseteq_r.
Qed.

Lemma order_book_foreign_key_witness :
  order_book ((1, "DOGE", "buy", 100, 5) :: [])
             (<[ "mid" := [] ]> empty_book) "DOGE"
  = ([], Raise TypeError).
Proof.
  apply order_book_foreign_key.
  apply (bool_decide_unpack _). vm_compute. exact I.
Defined.

(** X9: a book that comes without a "buy" list has None, not an empty list,
    as the bid ledger of every snapshot, for as long as the stream brings no
    buy order of the instrument. *)
Theorem order_book_missing_side (orders : list order_row)
    (book : gmap string ledger) (stock_name : string) :
  book !! "buy" = None →
  Forall (λ row, ¬ on_side stock_name "buy" row) orders →
  Forall (λ s, snap_bids s = None) (order_book orders book stock_name).1.
Proof.
  intros Hnone Hrows.
  apply (order_book_snapshots_inv (λ book, book !! "buy" = None)
           (λ row, ¬ on_side stock_name "buy" row)); [| |done|done].
  - intros bk row Hrow Hbk.
    rewrite stored_after_lookup. by rewrite decide_False.
  - intros bk t bids asks Hbk. unfold clear_book_kwargs.
    destruct (decide _); [|done]. rewrite Hbk. by intros [= <- <-].
Qed.

Lemma order_book_missing_side_witness :
  Forall (λ s, snap_bids s = None)
         (order_book [(1, "DOGE", "sell", 90, 5); (2, "BTC", "buy", 100, 3)]
                     {[ "sell" := [] ]} "DOGE").1.
Proof.
  apply order_book_missing_side.
  - reflexivity.
  - apply Forall_cons. split; [intros [_ [=]]|].
    apply Forall_cons. split; [intros [[=] _]|]. apply Forall_nil_2.
Defined.

(** * The query string of a request *)

(** The character occurs in the string. *)
Fixpoint has_char (c : ascii) (s : string) : bool :=
  match s with
  | EmptyString => false
  | String c' s' => bool_decide (c' = c) || has_char c s'
  end.

(** The number of its occurrences. *)
Fixpoint count_char (c : ascii) (s : string) : nat :=
  match s with
  | EmptyString => 0%nat
  | String c' s' => ((if decide (c' = c) then 1 else 0) + count_char c s')%nat
  end.

(** [sep.join(items)] *)
Fixpoint str_join (sep : ascii) (items : list string) : string :=
  match items with
  | [] => EmptyString
  | [w] => w
  | w :: items' => w +:+ String sep (str_join sep items')
  end.

(** [key=value] *)
Definition parameter (kv : string * string) : string :=
  kv.1 +:+ String "=" kv.2.

(** [base?key=value&key=value...] *)
Definition query_path (base : string) (kvs : list (string * string)) : string :=
  base +:+ String "?" (str_join "&" (parameter <$> kvs)).

(** None of the three separators occurs in the string. *)
Definition plain (s : string) : Prop :=
  has_char "?" s = false ∧ has_char "&" s = false ∧ has_char "=" s = false.

Lemma str_split_nonempty (sep : ascii) (s : string) :
  ∃ w ws, str_split sep s = w :: ws.
Proof.
  destruct s as [|c s]; cbn [str_split]; [eauto|].
  destruct (decide (c = sep)); [eauto|].
  destruct (str_split sep s); eauto.
Qed.

Lemma str_split_plain (sep : ascii) (s : string) :
  has_char sep s = false → str_split sep s = [s].
Proof.
  induction s as [|c s IH]; [done|]. cbn [has_char str_split].
  intros [Hc Hs]%orb_false_elim. apply bool_decide_eq_false_1 in Hc.
  rewrite decide_False by done. by rewrite IH.
Qed.

Lemma str_split_app (sep : ascii) (a b : string) :
  has_char sep a = false →
  str_split sep (a +:+ String sep b) = a :: str_split sep b.
Proof.
  induction a as [|c a IH].
  - intros _. change ("" +:+ String sep b) with (String sep b).
    cbn [str_split]. by rewrite decide_True.
  - cbn [has_char]. intros [Hc Ha]%orb_false_elim.
    apply bool_decide_eq_false_1 in Hc.
    change (String c a +:+ String sep b) with (String c (a +:+ String sep b)).
    cbn [str_split]. rewrite decide_False by done. by rewrite IH.
Qed.

Lemma str_split_length (sep : ascii) (s : string) :
  length (str_split sep s) = S (count_char sep s).
Proof.
  induction s as [|c s IH]; [done|]. cbn [str_split count_char].
  destruct (decide (c = sep)); [cbn; by rewrite IH|].
  destruct (str_split sep s); cbn in *; lia.
Qed.

Lemma has_char_app (c : ascii) (a b : string) :
  has_char c (a +:+ b) = has_char c a || has_char c b.
Proof.
  induction a as [|c' a IH]; [done|].
  change (String c' a +:+ b) with (String c' (a +:+ b)).
  cbn [has_char]. by rewrite IH, orb_assoc.
Qed.

Lemma has_char_join (c sep : ascii) (items : list string) :
  c ≠ sep →
  Forall (λ w, has_char c w = false) items →
  has_char c (str_join sep items) = false.
Proof.
  intros Hne. induction items as [|w items IH]; [done|].
  intros [Hw Hitems]%Forall_cons. destruct items as [|w' items]; [done|].
  cbn [str_join]. rewrite has_char_app, Hw. cbn [has_char orb].
  rewrite bool_decide_eq_false_2 by done. by apply IH.
Qed.

Lemma str_split_join (sep : ascii) (items : list string) :
  items ≠ [] →
  Forall (λ w, has_char sep w = false) items →
  str_split sep (str_join sep items) = items.
Proof.
  induction items as [|w items IH]; [done|].
  intros _ [Hw Hitems]%Forall_cons. destruct items as [|w' items].
  - by apply str_split_plain.
  - cbn [str_join]. rewrite str_split_app by done. f_equal. by apply IH.
Qed.

(** Splitting loses nothing: joined again, the pieces are the string. *)
Lemma str_join_split (sep : ascii) (s : string) :
  str_join sep (str_split sep s) = s.
Proof.
  induction s as [|c s IH]; [done|]. cbn [str_split].
  destruct (decide (c = sep)) as [->|].
  - destruct (str_split_nonempty sep s) as (w & ws & Heq).
    rewrite Heq in IH |- *.
    change (String sep (str_join sep (w :: ws)) = String sep s).
    by rewrite IH.
  - destruct (str_split sep s) as [|w [|w' ws]]; subst s; reflexivity.
Qed.

Lemma parameter_split (kv : string * string) :
  has_char "=" kv.1 = false → has_char "=" kv.2 = false →
  str_split "=" (parameter kv) = [kv.1; kv.2].
Proof.
  intros Hk Hv. unfold parameter.
  by rewrite str_split_app, str_split_plain.
Qed.

Lemma parameter_has_char (c : ascii) (kv : string * string) :
  c ≠ "="%char → has_char c kv.1 = false → has_char c kv.2 = false →
  has_char c (parameter kv) = false.
Proof.
  intros Hne Hk Hv. unfold parameter.
  rewrite has_char_app, Hk. cbn [has_char orb].
  by rewrite bool_decide_eq_false_2.
Qed.

Lemma dict_update_pairs (d : gmap string string) (kvs : list (string * string)) :
  Forall (λ kv, has_char "=" kv.1 = false ∧ has_char "=" kv.2 = false) kvs →
  dict_update d (str_split "=" <$> (parameter <$> kvs))
  = Dict (foldl (λ d kv, <[ kv.1 := kv.2 ]> d) d kvs).
Proof.
  revert d. induction kvs as [|kv kvs IH]; intros d; [done|].
  intros [[Hk Hv] Hkvs]%Forall_cons.
  rewrite !fmap_cons, parameter_split by done. cbn [dict_update foldl].
  by apply IH.
Qed.

Lemma foldl_insert_list_to_map (kvs : list (string * string)) :
  foldl (λ (d : gmap string string) kv, <[ kv.1 := kv.2 ]> d) ∅ kvs
  = list_to_map (reverse kvs).
Proof.
  induction kvs as [|kv kvs IH] using rev_ind; [done|].
  by rewrite foldl_app, reverse_snoc, IH.
Qed.

Lemma dict_update_bad (d : gmap string string) (items : list (list string)) :
  Exists (λ item, length item ≠ 2%nat) items →
  dict_update d items = ValueError.
Proof.
  revert d. induction items as [|item items IH]; intros d.
  - by intros ?%Exists_nil.
  - intros Hex. destruct item as [|k [|v [|x item]]]; try done.
    cbn [dict_update]. apply IH.
    by apply Exists_cons in Hex as [Hbad|Hex].
Qed.

(** X10: a path without a question mark has no parameters: [read_params]
    returns the empty dict. *)
Theorem read_params_no_query (path : string) :
  has_char "?" path = false → read_params path = Dict ∅.
Proof.
  intros Hplain. unfold read_params. by rewrite str_split_plain.
Qed.

Lemma read_params_no_query_witness : read_params "/query" = Dict ∅.
Proof. apply read_params_no_query. reflexivity. Defined.

(** X11: [read_params] reads back what a query string spells: for a base
    without question mark and one or more key=value parameters joined by
    ampersands, keys and values free of the three separators, it returns
    the dict of these pairs, the last value winning for a repeated key. *)
Theorem read_params_query_path (base : string) (kvs : list (string * string)) :
  has_char "?" base = false →
  kvs ≠ [] →
  Forall (λ kv, plain kv.1 ∧ plain kv.2) kvs →
  read_params (query_path base kvs) = Dict (list_to_map (reverse kvs)).
Proof.
  intros Hbase Hne Hkvs. unfold read_params, query_path.
  rewrite str_split_app by done.
  rewrite str_split_plain.
  - rewrite str_split_join.
    + unfold dict. rewrite dict_update_pairs, foldl_insert_list_to_map; [done|].
      eapply Forall_impl; [exact Hkvs|]. unfold plain. cbn. tauto.
    + by destruct kvs.
    + apply Forall_fmap. eapply Forall_impl; [exact Hkvs|].
      intros kv [(_ & Hk & _) (_ & Hv & _)]. by apply parameter_has_char.
  - apply has_char_join; [done|].
    apply Forall_fmap. eapply Forall_impl; [exact Hkvs|].
    intros kv [(Hk & _) (Hv & _)]. by apply parameter_has_char.
Qed.

Lemma read_params_query_path_witness :
  read_params (query_path "/query" [("stock", "DOGE"); ("n", "1"); ("stock", "BTC")])
  = Dict (list_to_map (reverse [("stock", "DOGE"); ("n", "1"); ("stock", "BTC")])).
Proof.
  apply read_params_query_path; [reflexivity|done|].
  repeat (apply Forall_cons; split; [by vm_compute|]). apply Forall_nil_2.
Defined.

(** X12: one parameter that does not hold exactly one equals sign makes
    [read_params] raise ValueError, whatever the other parameters are; a path
    that ends in its question mark is such a path, its one parameter being
    empty. *)
Theorem read_params_bad_parameter (base query : string) :
  has_char "?" base = false →
  has_char "?" query = false →
  Exists (λ item, count_char "=" item ≠ 1%nat) (str_split "&" query) →
  read_params (base +:+ String "?" query) = ValueError.
Proof.
  intros Hbase Hquery Hbad. unfold read_params.
  rewrite str_split_app, str_split_plain by done.
  apply dict_update_bad, Exists_fmap.
  eapply Exists_impl; [exact Hbad|].
  intros item Hitem. cbn in Hitem |- *. rewrite str_split_length. lia.
Qed.

Lemma read_params_bad_parameter_witness :
  read_params ("/query" +:+ String "?" "") = ValueError.
Proof.
  apply read_params_bad_parameter; [reflexivity|reflexivity|].
  apply Exists_cons_hd. by vm_compute.
Defined.

(** X13: only the text between the first and the second question mark is
    read: what follows a second question mark changes nothing. *)
Theorem read_params_second_mark (base query rest : string) :
  has_char "?" base = false →
  has_char "?" query = false →
  read_params (base +:+ String "?" (query +:+ String "?" rest))
  = read_params (base +:+ String "?" query).
Proof.
  intros Hbase Hquery. unfold read_params.
  rewrite !str_split_app by done.
  by rewrite (str_split_plain "?" query Hquery).
Qed.

Lemma read_params_second_mark_witness :
  read_params ("/query" +:+ String "?" ("stock=DOGE" +:+ String "?" "stock=BTC"))
  = read_params ("/query" +:+ String "?" "stock=DOGE").
Proof. apply read_params_second_mark; reflexivity. Defined.

(** * Where clear_book stops *)

(** The front run of the entries that an order at that price crosses under
    [ge]. *)
Fixpoint front_run (order : Z) (book : ledger) : ledger :=
  match book with
  | [] => []
  | e :: book' => if ge order (price e) then e :: front_run order book' else []
  end.

Lemma clear_order_none_sum (order size : Z) (book : ledger) (n : Z) :
  nonneg book → 0 ≤ size →
  clear_order order size book ge n = Ok None →
  sum_sizes (front_run order book) ≤ size.
Proof.
  revert size n. induction book as [|[[p s] a] tail IH]; [done|].
  intros size n [Hs Htail]%Forall_cons Hsize.
  change (0 ≤ s) in Hs. cbn [clear_order front_run].
  change (price (p, s, a)) with p.
  destruct (ge order p); [|done].
  rewrite sum_sizes_cons. change (esize (p, s, a)) with s.
  destruct (Z.ltb_spec 0 (s - size)); [done|].
  destruct tail as [|e tail].
  - intros _. change (sum_sizes (front_run order [])) with 0. lia.
  - cbn [length Nat.ltb Nat.leb]. intros Hnone.
    assert (sum_sizes (front_run order (e :: tail)) ≤ - (s - size));
      [|lia].
    eapply IH; [done|lia|exact Hnone].
Qed.

(** X14: [clear_book] leaves a bid at the front only if the asks cannot
    fill it: with sizes of 0 or more, the asks that the returned best bid
    crosses, taken from the front of the returned ask ledger, add up to no
    more than that bid's size.  A crossed pair comes back only so. *)
Theorem clear_book_stops_at_large_bid (buy sell bids asks : ledger)
    (b : entry) :
  nonneg sell →
  0 ≤ esize b →
  clear_book buy sell = Ok (b :: bids, asks) →
  sum_sizes (front_run (price b) asks) ≤ esize b.
Proof.
  intros Hsell Hb Hcb.
  assert (nonneg asks) as Hasks.
  { revert Hcb. apply (clear_book_asks_inv nonneg); [|done].
    intros order size book m bk. apply clear_order_nonneg. }
  apply clear_book_fixed in Hcb.
  destruct asks as [|a asks]; [done|].
  destruct b as [[o s] l]. cbn [clear_book] in Hcb.
  change (price (o, s, l)) with o. change (esize (o, s, l)) with s in *.
  destruct (clear_order o s (a :: asks) ge 0) as [[nb|]|] eqn:Hco; [| |done].
  - apply clear_book_suffix, suffix_length in Hcb. cbn in Hcb. lia.
  - by eapply clear_order_none_sum.
Qed.

Lemma clear_book_stops_at_large_bid_witness :
  sum_sizes (front_run (price (100, 5, 10)) [(90, 3, 10); (101, 9, 4)])
  ≤ esize (100, 5, 10).
Proof.
  apply (clear_book_stops_at_large_bid
           [(100, 5, 10)] [(90, 3, 10); (101, 9, 4)] []).
  - repeat constructor; by vm_compute.
  - by vm_compute.
  - reflexivity.
Defined.

(** X15: an order of another instrument repeats the ledgers of the snapshot
    before it under its own timestamp. *)
Theorem order_book_other_stock_repeats (orders : list order_row)
    (book : gmap string ledger) (stock_name : string) (i : nat)
    (row : order_row) (s1 s2 : snapshot) :
  orders !! S i = Some row →
  stock_name ≠ row_stock row →
  (order_book orders book stock_name).1 !! i = Some s1 →
  (order_book orders book stock_name).1 !! S i = Some s2 →
  s2 = (row_time row, snap_bids s1, snap_asks s1).
Proof.
  intros Hrow Hstock
    (row1 & _ & _ & Hkw1)%order_book_snapshot_lookup
    (row2 & Hrow2 & Htime & Hkw2)%order_book_snapshot_lookup.
  assert (row2 = row) as -> by congruence.
  rewrite (take_S_r orders (S i) row Hrow), foldl_snoc in Hkw2.
  unfold stored_after at 1 in Hkw2. rewrite decide_False in Hkw2 by done.
  rewrite Hkw1 in Hkw2. injection Hkw2 as Hb Ha.
  destruct s2 as [[t2 b2] a2]. cbn in *. unfold snap_bids, snap_asks.
  by subst.
Qed.

Lemma order_book_other_stock_repeats_witness :
  ((2, Some [(100, 5, 10)], Some []) : snapshot)
  = (row_time (2, "BTC", "sell", 90, 3),
     snap_bids (1, Some [(100, 5, 10)], Some []),
     snap_asks (1, Some [(100, 5, 10)], Some [])).
Proof.
  apply (order_book_other_stock_repeats
           [(1, "DOGE", "buy", 100, 5); (2, "BTC", "sell", 90, 3)]
           empty_book "DOGE" 0); [reflexivity|discriminate|reflexivity..].
Defined.
